(** * resolve_conflicts.py: a shallow embedding and its properties

    The script has two phases.  The Scanner walks the directory tree and
    collects the [.ts]/[.tsx] files under a [client] or [server] directory whose
    text contains the start-of-conflict marker.  The Resolver rewrites each
    collected file with
    [re.sub(r'<<<<<<< HEAD.*?=======(.*?)>>>>>>> jules-testing-merges', r'\1',
            content, flags=re.DOTALL)].

    Texts are [string]s, the file system is a finite map from paths to files,
    and the effects of the script (reading, writing, printing, raising and
    catching) live in a small state-and-exception monad. *)

From Stdlib Require Import String Ascii List Arith Lia Bool.
From stdpp Require Import base option strings gmap pretty.
Import ListNotations.


(** ** Part I: the program *)

(** *** Strings as Python uses them *)

(** [s.startswith(p)], returning what follows [p] in [s]. *)
Fixpoint strip_prefix (p s : string) : option string :=
  match p, s with
  | EmptyString, _ => Some s
  | String a p', String b s' => if Ascii.eqb a b then strip_prefix p' s' else None
  | String _ _, EmptyString => None
  end.

Definition startswith (s p : string) : bool :=
  match strip_prefix p s with Some _ => true | None => false end.

(** [s[n:]] *)
Fixpoint drop_chars (n : nat) (s : string) : string :=
  match n, s with
  | O, _ => s
  | S n', String _ s' => drop_chars n' s'
  | S _, EmptyString => EmptyString
  end.

(** [s.endswith(suf)] *)
Definition endswith (s suf : string) : bool :=
  (String.length suf <=? String.length s)%nat
  && String.eqb (drop_chars (String.length s - String.length suf) s) suf.

(** [pat in s] *)
Fixpoint contains (pat s : string) : bool :=
  match strip_prefix pat s with
  | Some _ => true
  | None => match s with
            | EmptyString => false
            | String _ s' => contains pat s'
            end
  end.

(** *** A backtracking matcher for the fragment of [re] the script uses

    The pattern of the script is a sequence of literals and lazy [.*?]
    repetitions, one of them inside the capturing group. *)

Inductive item : Type :=
  | Lit (l : string)            (* a run of literal characters *)
  | LazyDots (capture : bool).  (* [.*?], or [(.*?)] when [capture] *)

Definition regex := list item.

Definition newline : ascii := Ascii.ascii_of_nat 10.

Section Engine.

(** The [re.DOTALL] flag. *)
Variable dotall : bool.

Definition dot_matches (c : ascii) : bool :=
  dotall || negb (Ascii.eqb c newline).

(** [.*?] followed by the continuation [k]: the shortest run of characters
    after which [k] succeeds.  The run is returned next to [k]'s result. *)
Fixpoint lazy_dots {R : Type} (k : string -> option R) (s : string)
  : option (string * R) :=
  match k s with
  | Some r => Some (EmptyString, r)
  | None =>
      match s with
      | EmptyString => None
      | String c s' =>
          if dot_matches c then
            match lazy_dots k s' with
            | Some (g, r) => Some (String c g, r)
            | None => None
            end
          else None
      end
  end.

(** Match the pattern at the start of [s]: the captured groups and the
    text after the match. *)
Fixpoint match_here (p : regex) (s : string) : option (list string * string) :=
  match p with
  | [] => Some ([], s)
  | Lit l :: p' =>
      match strip_prefix l s with
      | Some s' => match_here p' s'
      | None => None
      end
  | LazyDots capture :: p' =>
      match lazy_dots (match_here p') s with
      | Some (g, (gs, rest)) => Some (if capture then g :: gs else gs, rest)
      | None => None
      end
  end.

(** The replacement template [r'\1']. *)
Definition group1 (gs : list string) : string := nth 0 gs EmptyString.

(** The scan of [re.sub]: at each position try the pattern; on a match emit
    the expanded template and go on after the match, otherwise copy one
    character.  [fuel] bounds the number of steps.  A match of the empty
    string, which [re.sub] treats apart, is not modelled: a match of the
    script's pattern spans 47 characters or more ([conflict_block_length]),
    and [resolved_content_eq] shows that the fuel given below never runs
    out. *)
Fixpoint sub_loop (fuel : nat) (p : regex) (s : string) : string :=
  match fuel with
  | O => s
  | S fuel' =>
      match match_here p s with
      | Some (gs, rest) => group1 gs +:+ sub_loop fuel' p rest
      | None =>
          match s with
          | EmptyString => EmptyString
          | String c s' => String c (sub_loop fuel' p s')
          end
      end
  end.

Definition re_sub (p : regex) (s : string) : string :=
  sub_loop (String.length s) p s.

End Engine.

(** *** The Resolver's transformation *)

Definition start_marker : string := "<<<<<<< HEAD".
Definition separator : string := "=======".
Definition end_marker : string := ">>>>>>> jules-testing-merges".

(** [r'<<<<<<< HEAD.*?=======(.*?)>>>>>>> jules-testing-merges'] *)
Definition conflict_pattern : regex :=
  [Lit start_marker; LazyDots false; Lit separator; LazyDots true; Lit end_marker].

Definition DOTALL : bool := true.

(** The pattern tried at the start of [s]: the incoming span and the text
    after the block. *)
Definition match_at (s : string) : option (string * string) :=
  match match_here DOTALL conflict_pattern s with
  | Some (gs, rest) => Some (group1 gs, rest)
  | None => None
  end.

(** [resolved_content = re.sub(conflict_pattern, r'\1', content, flags=re.DOTALL)] *)
Definition resolved_content (content : string) : string :=
  re_sub DOTALL conflict_pattern content.

(** *** The world of the script: files, standard output, exceptions *)

(** A file of the tree.  [text] is its content as [read()] returns it;
    [readable] is false for a file whose [read()] raises (permissions, or
    bytes that do not decode); [writable] is false for a file that cannot be
    opened for writing. *)
Record file : Type := File {
  readable : bool;
  writable : bool;
  text : string
}.

Record world : Type := World {
  fs : gmap string file;
  stdout : list string
}.

Inductive exn : Type :=
  | FileNotFoundError (path : string)
  | PermissionError (path : string).

(** A computation changes the world and either raises or returns. *)
Definition io (A : Type) : Type := world -> world * (exn + A).

Definition ret {A : Type} (x : A) : io A := fun w => (w, inr x).

Definition bind {A B : Type} (m : io A) (k : A -> io B) : io B :=
  fun w =>
    match m w with
    | (w', inr x) => k x w'
    | (w', inl e) => (w', inl e)
    end.

(** [try: m  except: h] with a bare [except], which catches everything. *)
Definition try_except {A : Type} (m : io A) (h : exn -> io A) : io A :=
  fun w =>
    match m w with
    | (w', inl e) => h e w'
    | (w', inr x) => (w', inr x)
    end.

Declare Scope io_scope.
Delimit Scope io_scope with io.
Notation "x <- m ;; k" := (bind m (fun x => k))
  (at level 100, m at next level, right associativity) : io_scope.
Notation "m ;; k" := (bind m (fun _ => k))
  (at level 100, right associativity) : io_scope.

Definition print (line : string) : io unit :=
  fun w => ({| fs := fs w; stdout := stdout w ++ [line] |}, inr tt).

(** [with open(path, 'r') as f: f.read()] *)
Definition read_file (path : string) : io string :=
  fun w =>
    match fs w !! path with
    | None => (w, inl (FileNotFoundError path))
    | Some f =>
        if readable f then (w, inr (text f)) else (w, inl (PermissionError path))
    end.

(** [with open(path, 'w') as f: f.write(new)]: the file is created when it
    does not exist. *)
Definition write_file (path new : string) : io unit :=
  fun w =>
    match fs w !! path with
    | None =>
        ({| fs := <[path := File true true new]> (fs w); stdout := stdout w |},
         inr tt)
    | Some f =>
        if writable f then
          ({| fs := <[path := File (readable f) true new]> (fs w);
              stdout := stdout w |}, inr tt)
        else (w, inl (PermissionError path))
    end.

(** [for x in l: body(x)] *)
Fixpoint for_each {A : Type} (body : A -> io unit) (l : list A) : io unit :=
  match l with
  | [] => ret tt
  | x :: l' => (body x ;; for_each body l')%io
  end.

(** *** The Resolver *)

Definition resolve_conflicts (file_path : string) : io unit :=
  (print ("Resolving conflicts in " +:+ file_path) ;;
   content <- read_file file_path ;;
   write_file file_path (resolved_content content))%io.

(** *** The Scanner *)

(** [os.path.join(a, b)] of [posixpath]. *)
Definition path_join (a b : string) : string :=
  if startswith b "/" then b
  else if String.eqb a "" || endswith a "/" then a +:+ b
  else a +:+ "/" +:+ b.

(** One [(root, dirs, files)] triple yielded by [os.walk]. *)
Definition walk_entry : Type := string * list string * list string.

(** The body of the inner loop; [conflict_files] is the list built so far. *)
Definition scan_file (root file : string) (conflict_files : list string)
  : io (list string) :=
  if (endswith file ".tsx" || endswith file ".ts")
     && (contains "client" root || contains "server" root)
  then
    let file_path := path_join root file in
    try_except
      (content <- read_file file_path ;;
       if contains "<<<<<<< HEAD" content
       then ret (conflict_files ++ [file_path])
       else ret conflict_files)%io
      (fun _ => ret conflict_files)
  else ret conflict_files.

Fixpoint scan_dir (root : string) (files : list string)
    (conflict_files : list string) : io (list string) :=
  match files with
  | [] => ret conflict_files
  | file :: files' =>
      (conflict_files' <- scan_file root file conflict_files ;;
       scan_dir root files' conflict_files')%io
  end.

Fixpoint scan_walk (walk : list walk_entry) (conflict_files : list string)
  : io (list string) :=
  match walk with
  | [] => ret conflict_files
  | (root, _, files) :: walk' =>
      (conflict_files' <- scan_dir root files conflict_files ;;
       scan_walk walk' conflict_files')%io
  end.

(** *** The whole script, given what [os.walk('.')] yields *)

Definition resolve_all (conflict_files : list string) : io unit :=
  for_each resolve_conflicts conflict_files.

Definition main (walk : list walk_entry) : io unit :=
  (conflict_files <- scan_walk walk [] ;;
   print ("Found " +:+ pretty (length conflict_files) +:+ " files with conflicts") ;;
   resolve_all conflict_files ;;
   print "All conflicts resolved!")%io.

(** ** Part II: the vocabulary of the specification *)

Definition nl : string := String newline EmptyString.

(** [pat] occurs somewhere in [s]. *)
Definition occurs (pat s : string) : Prop :=
  exists a b, s = a +:+ pat +:+ b.

(** In [a +:+ pat +:+ b], no occurrence of [pat] begins before the one
    after [a]. *)
Definition first_occurrence (pat a b : string) : Prop :=
  forall a' b', a +:+ pat +:+ b = a' +:+ pat +:+ b' ->
    String.length a <= String.length a'.

(** A conflict block begins at the start of [s]: the start marker, later a
    separator, later an end marker. *)
Definition block_begins (s : string) : Prop :=
  exists cur inc rest,
    s = start_marker +:+ cur +:+ separator +:+ inc +:+ end_marker +:+ rest.

(** The conflict block at the start of [s], as the specification delimits it:
    from the start marker up to the first separator, then up to the first end
    marker; [inc] is the incoming span and [rest] the text after the block. *)
Definition conflict_block (s inc rest : string) : Prop :=
  exists cur,
    s = start_marker +:+ cur +:+ separator +:+ inc +:+ end_marker +:+ rest
    /\ first_occurrence separator cur (inc +:+ end_marker +:+ rest)
    /\ first_occurrence end_marker inc rest.

(** The resolution of a text, as the specification words it: going from left
    to right, a block is replaced by its incoming span and the scan resumes
    after the block; a character at which no block begins is kept. *)
Inductive resolution : string -> string -> Prop :=
  | resolution_end : resolution EmptyString EmptyString
  | resolution_keep c s r :
      ~ block_begins (String c s) ->
      resolution s r ->
      resolution (String c s) (String c r)
  | resolution_block s inc rest r :
      conflict_block s inc rest ->
      resolution rest r ->
      resolution s (inc +:+ r).

(** The explicit scanner over literal markers: split [s] at the first
    occurrence of [pat]. *)
Fixpoint first_split (pat s : string) : option (string * string) :=
  match strip_prefix pat s with
  | Some rest => Some (EmptyString, rest)
  | None =>
      match s with
      | EmptyString => None
      | String c s' =>
          match first_split pat s' with
          | Some (a, b) => Some (String c a, b)
          | None => None
          end
      end
  end.

(** The block at the start of [s] found with three splits. *)
Definition block_split (s : string) : option (string * string) :=
  match strip_prefix start_marker s with
  | None => None
  | Some s1 =>
      match first_split separator s1 with
      | None => None
      | Some (_, s2) => first_split end_marker s2
      end
  end.

(** The engine's attempt at offset [n] of [content] succeeds. *)
Definition matches_at_offset (content : string) (n : nat) : Prop :=
  match_at (drop_chars n content) <> None.

(** Offset [n] of [content] is the beginning of a line. *)
Definition line_start (content : string) (n : nat) : Prop :=
  n = 0 \/ String.get (n - 1) content = Some newline.

(** The text of [name] from its last dot on, empty when it has no dot. *)
Fixpoint final_extension (name : string) : string :=
  match name with
  | EmptyString => EmptyString
  | String c rest =>
      match final_extension rest with
      | EmptyString => if Ascii.eqb c "." then name else EmptyString
      | e => e
      end
  end.

(** None of the three markers of the pattern occurs in [content]. *)
Definition marker_free (content : string) : Prop :=
  ~ occurs start_marker content
  /\ ~ occurs separator content
  /\ ~ occurs end_marker content.

(** The world after [line] was printed. *)
Definition printed (line : string) (w : world) : world :=
  {| fs := fs w; stdout := stdout w ++ [line] |}.

(** A continuation that, failing on a text, fails on its suffixes. *)
Definition fails_on_suffixes {R : Type} (k : string -> option R) : Prop :=
  forall d t, k (d +:+ t) = None -> k t = None.

(** [a] followed by [pat]: whatever comes next, that occurrence of [pat] is
    the first one. *)
Definition runs_to_first (pat a : string) : Prop :=
  forall b, first_occurrence pat a b.

(** A separator occurs in [content] and an end marker occurs after it. *)
Definition separator_then_end (content : string) : Prop :=
  exists a b c, content = a +:+ separator +:+ b +:+ end_marker +:+ c.

(** [content] holds a complete block: a start marker, after it a separator,
    after it an end marker. *)
Definition complete_block (content : string) : Prop :=
  exists a cur inc rest,
    content = a +:+ start_marker +:+ cur +:+ separator +:+ inc +:+ end_marker +:+ rest.

(** No block begins anywhere in [s]. *)
Definition block_free (s : string) : Prop :=
  forall a b, s = a +:+ b -> ~ block_begins b.

(** The file of the specification's round-trip example: one block whose two
    sides are the lines [A] and [B]. *)
Definition one_block_file : string :=
  "<<<<<<< HEAD" +:+ nl +:+ "A" +:+ nl +:+ "=======" +:+ nl +:+ "B" +:+ nl
  +:+ ">>>>>>> jules-testing-merges" +:+ nl.

(** A block that begins in the middle of a line. *)
Definition midline_file : string :=
  "x <<<<<<< HEAD a=======b>>>>>>> jules-testing-mergesy".

(** A block whose incoming span holds the beginning of another block. *)
Definition nested_file : string :=
  "<<<<<<< HEAD a ======= <<<<<<< HEAD b ======= c >>>>>>> jules-testing-merges"
  +:+ " d >>>>>>> jules-testing-merges".

(** A start marker that no separator and end marker follow. *)
Definition unfinished_file : string :=
  "<<<<<<< HEAD" +:+ nl +:+ "A" +:+ nl +:+ "=======" +:+ nl +:+ "B" +:+ nl.

(** The four conditions under which the Scanner keeps [file] of the
    directory [root]: a recognized final extension, a directory path with one
    of the two substrings, a read that succeeds, and the start marker in the
    text read. *)
Definition is_candidate (root file : string) (w : world) : Prop :=
  (final_extension file = ".tsx" \/ final_extension file = ".ts")
  /\ (occurs "client" root \/ occurs "server" root)
  /\ exists content,
       read_file (path_join root file) w = (w, inr content)
       /\ occurs "<<<<<<< HEAD" content.

(** The same conditions, decided. *)
Definition candidateb (root file : string) (w : world) : bool :=
  (endswith file ".tsx" || endswith file ".ts")
  && (contains "client" root || contains "server" root)
  && match fs w !! path_join root file with
     | Some f => readable f && contains "<<<<<<< HEAD" (text f)
     | None => false
     end.

(** The progress lines of the script. *)
Definition found_line (conflict_files : list string) : string :=
  "Found " +:+ pretty (length conflict_files) +:+ " files with conflicts".

Definition resolving_line (file_path : string) : string :=
  "Resolving conflicts in " +:+ file_path.

(** A small tree: two files with a conflict, one that is read-only and one
    that cannot be read; and what [os.walk] yields for it. *)
Definition sample_fs : gmap string file :=
  <["./client/src/App.tsx" := File true true one_block_file]>
    (<["./server/index.ts" := File true true midline_file]>
       (<["./server/locked.ts" := File true false one_block_file]>
          (<["./server/secret.ts" := File false true one_block_file]> ∅))).

Definition sample_walk : list walk_entry :=
  [(".", ["client"; "server"], []);
   ("./client", ["src"], []);
   ("./client/src", [], ["App.tsx"]);
   ("./server", [], ["secret.ts"; "locked.ts"; "index.ts"])].

Definition sample_world : world := World sample_fs [].

(** *** Vocabulary for the whole run *)



(** The candidate list in closed form: the joined paths of the files that
    pass the four tests, in the order of the walk. *)
Definition candidates_of (walk : list walk_entry) (w : world) : list string :=
  flat_map
    (fun entry : walk_entry =>
       let '(root, _, files) := entry in
       List.map (path_join root)
         (List.filter (fun file => candidateb root file w) files))
    walk.





(** ** Part III: properties *)

(** *** Strings *)

#[local] Arguments String.append !s1 s2 : simpl nomatch.

Lemma app_assoc_s (a b c : string) : (a +:+ b) +:+ c = a +:+ b +:+ c.
Proof. induction a as [|x a IH]; simpl; [reflexivity | now rewrite IH]. Qed.

Lemma app_nil_r_s (a : string) : a +:+ "" = a.
Proof. induction a as [|x a IH]; simpl; [reflexivity | now rewrite IH]. Qed.

Lemma length_app_s (a b : string) :
  String.length (a +:+ b) = String.length a + String.length b.
Proof. induction a as [|x a IH]; simpl; [reflexivity | now rewrite IH]. Qed.

Lemma app_inv_head_s (a x y : string) : a +:+ x = a +:+ y -> x = y.
Proof. induction a as [|c a IH]; simpl; intros H; [exact H | injection H; auto]. Qed.

(** Two ways of cutting one text: the shorter head is a prefix of the longer. *)
Lemma app_eq_app_s (a x a' x' : string) :
  a +:+ x = a' +:+ x' -> String.length a <= String.length a' ->
  exists d, a' = a +:+ d /\ x = d +:+ x'.
Proof.
  revert a'. induction a as [|c a IH]; intros a' H Hlen.
  - exists a'. simpl in *. auto.
  - destruct a' as [|c' a']; simpl in *; [lia|].
    injection H as -> H. destruct (IH a' H) as (d & -> & ->); [lia|].
    exists d. auto.
Qed.

Lemma strip_prefix_app (p s : string) : strip_prefix p (p +:+ s) = Some s.
Proof.
  induction p as [|c p IH]; simpl; [reflexivity|].
  now rewrite Ascii.eqb_refl.
Qed.

Lemma strip_prefix_Some (p s r : string) :
  strip_prefix p s = Some r <-> s = p +:+ r.
Proof.
  split.
  - revert s. induction p as [|c p IH]; intros s H; simpl in *.
    + congruence.
    + destruct s as [|c' s]; [discriminate|].
      destruct (Ascii.eqb_spec c c') as [->|]; [|discriminate].
      now rewrite (IH _ H).
  - intros ->. apply strip_prefix_app.
Qed.

Lemma strip_prefix_None (p s : string) :
  strip_prefix p s = None <-> forall r, s <> p +:+ r.
Proof.
  split.
  - intros H r ->. rewrite strip_prefix_app in H. discriminate.
  - intros H. destruct (strip_prefix p s) as [r|] eqn:E; [|reflexivity].
    apply strip_prefix_Some in E. now destruct (H r).
Qed.

Lemma drop_chars_app (a b : string) : drop_chars (String.length a) (a +:+ b) = b.
Proof. induction a as [|c a IH]; simpl; [now destruct b | exact IH]. Qed.

Lemma drop_chars_split (n : nat) (s : string) :
  n <= String.length s ->
  exists a, s = a +:+ drop_chars n s /\ String.length a = n.
Proof.
  revert s. induction n as [|n IH]; intros s H.
  - exists "". now destruct s.
  - destruct s as [|c s]; simpl in *; [lia|].
    destruct (IH s) as (a & Ha & Hl); [lia|].
    exists (String c a). simpl. split; [now rewrite <- Ha | now rewrite Hl].
Qed.

Lemma endswith_spec (s suf : string) :
  endswith s suf = true <-> exists a, s = a +:+ suf.
Proof.
  unfold endswith. rewrite andb_true_iff, Nat.leb_le, String.eqb_eq. split.
  - intros [Hlen Heq].
    destruct (drop_chars_split (String.length s - String.length suf) s) as (a & Ha & _);
      [lia|].
    exists a. now rewrite Heq in Ha.
  - intros [a ->]. rewrite length_app_s. split; [lia|].
    replace (String.length a + String.length suf - String.length suf)
      with (String.length a) by lia.
    apply drop_chars_app.
Qed.

Lemma contains_spec (pat s : string) : contains pat s = true <-> occurs pat s.
Proof.
  unfold occurs. induction s as [|c s IH]; simpl.
  - destruct (strip_prefix pat "") as [r|] eqn:E.
    + apply strip_prefix_Some in E. split; [|reflexivity].
      intros _. exists "", r. exact E.
    + split; [discriminate|]. intros (a & b & H).
      destruct a; simpl in H; [|discriminate].
      rewrite H, strip_prefix_app in E. discriminate.
  - destruct (strip_prefix pat (String c s)) as [r|] eqn:E.
    + apply strip_prefix_Some in E. split; [|reflexivity].
      intros _. exists "", r. exact E.
    + rewrite IH. split.
      * intros (a & b & ->). exists (String c a), b. reflexivity.
      * intros (a & b & H). destruct a as [|c' a]; simpl in H.
        -- rewrite H, strip_prefix_app in E. discriminate.
        -- injection H as -> ->. eauto.
Qed.

(** *** The explicit scanner finds first occurrences *)

Lemma first_split_eq (pat s : string) :
  first_split pat s =
  match strip_prefix pat s with
  | Some rest => Some ("", rest)
  | None =>
      match s with
      | EmptyString => None
      | String c s' =>
          match first_split pat s' with
          | Some (a, b) => Some (String c a, b)
          | None => None
          end
      end
  end.
Proof. destruct s; reflexivity. Qed.

Lemma first_occurrence_tail (pat : string) (c : ascii) (a b : string) :
  first_occurrence pat (String c a) b -> first_occurrence pat a b.
Proof.
  intros H a' b' E. specialize (H (String c a') b'). simpl in H.
  rewrite E in H. specialize (H eq_refl). lia.
Qed.

Lemma first_split_sound (pat s a b : string) :
  first_split pat s = Some (a, b) ->
  s = a +:+ pat +:+ b /\ first_occurrence pat a b.
Proof.
  revert a b. induction s as [|c s IH]; intros a b H; rewrite first_split_eq in H.
  - destruct (strip_prefix pat "") as [r|] eqn:E; [|discriminate].
    injection H as <- <-. apply strip_prefix_Some in E.
    split; [exact E | intros ? ? _; simpl; lia].
  - destruct (strip_prefix pat (String c s)) as [r|] eqn:E.
    + injection H as <- <-. apply strip_prefix_Some in E.
      split; [exact E | intros ? ? _; simpl; lia].
    + destruct (first_split pat s) as [[a0 b0]|]; [|discriminate].
      injection H as <- <-. destruct (IH a0 b0 eq_refl) as [-> Hfirst].
      split; [reflexivity|].
      intros a' b' E'. destruct a' as [|c' a']; simpl in E'.
      * rewrite E', strip_prefix_app in E. discriminate.
      * injection E' as _ E'. apply Hfirst in E'. simpl. lia.
Qed.

Lemma first_split_complete (pat a b : string) :
  first_occurrence pat a b -> first_split pat (a +:+ pat +:+ b) = Some (a, b).
Proof.
  induction a as [|c a IH]; intros H; rewrite first_split_eq.
  - simpl. now rewrite strip_prefix_app.
  - destruct (strip_prefix pat (String c a +:+ pat +:+ b)) as [r|] eqn:E.
    + apply strip_prefix_Some in E. specialize (H "" r E). simpl in H. lia.
    + simpl. now rewrite (IH (first_occurrence_tail _ _ _ _ H)).
Qed.

Lemma first_split_None (pat s : string) :
  first_split pat s = None <-> ~ occurs pat s.
Proof.
  rewrite <- contains_spec.
  induction s as [|c s IH]; rewrite first_split_eq; simpl.
  - destruct (strip_prefix pat ""); split; congruence.
  - destruct (strip_prefix pat (String c s)); [split; congruence|].
    rewrite <- IH. destruct (first_split pat s) as [[? ?]|]; split; congruence.
Qed.

Lemma first_split_occurs (pat a b : string) :
  exists a' b', first_split pat (a +:+ pat +:+ b) = Some (a', b').
Proof.
  destruct (first_split pat (a +:+ pat +:+ b)) as [[a' b']|] eqn:E; [eauto|].
  apply first_split_None in E. destruct E. now exists a, b.
Qed.

(** Failing to find [pat] in a text, one fails in each of its suffixes. *)
Lemma first_split_None_suffix (pat d t : string) :
  first_split pat (d +:+ t) = None -> first_split pat t = None.
Proof.
  rewrite !first_split_None. intros H (a & b & ->). apply H.
  exists (d +:+ a), b. now rewrite app_assoc_s.
Qed.

(** *** The backtracking matcher agrees with the explicit scanner *)

Lemma lazy_dots_eq {R : Type} (dotall : bool) (k : string -> option R) (s : string) :
  lazy_dots dotall k s =
  match k s with
  | Some r => Some ("", r)
  | None =>
      match s with
      | EmptyString => None
      | String c s' =>
          if dot_matches dotall c then
            match lazy_dots dotall k s' with
            | Some (g, r) => Some (String c g, r)
            | None => None
            end
          else None
      end
  end.
Proof. destruct s; reflexivity. Qed.

Lemma match_here_lit (dotall : bool) (l : string) (p : regex) (s : string) :
  match_here dotall (Lit l :: p) s =
  match strip_prefix l s with
  | Some s' => match_here dotall p s'
  | None => None
  end.
Proof. reflexivity. Qed.

(** [.*?] before a literal stops at the first occurrence of the literal,
    provided that what follows cannot succeed later once it failed. *)
Lemma lazy_dots_lit (l : string) (p : regex) (s : string) :
  fails_on_suffixes (match_here DOTALL p) ->
  lazy_dots DOTALL (match_here DOTALL (Lit l :: p)) s =
  match first_split l s with
  | Some (g, s') =>
      match match_here DOTALL p s' with
      | Some r => Some (g, r)
      | None => None
      end
  | None => None
  end.
Proof.
  intros Hk. induction s as [|c s IH];
    rewrite lazy_dots_eq, first_split_eq, match_here_lit.
  - destruct (strip_prefix l "") as [s'|]; [|reflexivity].
    now destruct (match_here DOTALL p s').
  - destruct (strip_prefix l (String c s)) as [s'|] eqn:E.
    + destruct (match_here DOTALL p s') as [r|] eqn:Ek; [reflexivity|].
      change (dot_matches DOTALL c) with true. cbv iota. rewrite IH.
      destruct (first_split l s) as [[g t]|] eqn:Es; [|reflexivity].
      apply first_split_sound in Es as [Es _].
      apply strip_prefix_Some in E.
      assert (Hcut : l +:+ s' = (String c g +:+ l) +:+ t).
      { rewrite <- E, app_assoc_s. simpl. now rewrite Es. }
      apply app_eq_app_s in Hcut as (d & _ & ->);
        [|rewrite length_app_s; simpl; lia].
      now rewrite (Hk _ _ Ek).
    + change (dot_matches DOTALL c) with true. cbv iota. rewrite IH.
      destruct (first_split l s) as [[g t]|]; [|reflexivity].
      now destruct (match_here DOTALL p t).
Qed.

Lemma match_here_end_marker (s : string) :
  match_here DOTALL [LazyDots true; Lit end_marker] s =
  match first_split end_marker s with
  | Some (inc, rest) => Some ([inc], rest)
  | None => None
  end.
Proof.
  change (match_here DOTALL [LazyDots true; Lit end_marker] s)
    with (match lazy_dots DOTALL (match_here DOTALL [Lit end_marker]) s with
          | Some (g, (gs, rest)) => Some (g :: gs, rest)
          | None => None
          end).
  rewrite lazy_dots_lit; [|intros d t H; discriminate].
  now destruct (first_split end_marker s) as [[g t]|].
Qed.

(** The regular expression and the three splits find the same block. *)
Lemma match_at_block_split (s : string) : match_at s = block_split s.
Proof.
  unfold match_at, block_split, conflict_pattern.
  rewrite match_here_lit.
  destruct (strip_prefix start_marker s) as [s1|]; [|reflexivity].
  change (match_here DOTALL (LazyDots false :: ?p) s1)
    with (match lazy_dots DOTALL (match_here DOTALL p) s1 with
          | Some (g, (gs, rest)) => Some (gs, rest)
          | None => None
          end).
  rewrite lazy_dots_lit.
  - destruct (first_split separator s1) as [[cur s2]|]; [|reflexivity].
    rewrite match_here_end_marker.
    now destruct (first_split end_marker s2) as [[inc rest]|].
  - intros d t. rewrite !match_here_end_marker.
    destruct (first_split end_marker (d +:+ t)) as [[? ?]|] eqn:E; [discriminate|].
    now rewrite (first_split_None_suffix _ _ _ E).
Qed.

(** *** What the three splits find *)

Lemma block_split_sound (s inc rest : string) :
  block_split s = Some (inc, rest) -> conflict_block s inc rest.
Proof.
  unfold block_split. intros H.
  destruct (strip_prefix start_marker s) as [s1|] eqn:E1; [|discriminate].
  destruct (first_split separator s1) as [[cur s2]|] eqn:E2; [|discriminate].
  apply strip_prefix_Some in E1. apply first_split_sound in E2 as [E2 F2].
  apply first_split_sound in H as [E3 F3]. subst s s1 s2.
  exists cur. auto.
Qed.

Lemma block_split_complete (s inc rest : string) :
  conflict_block s inc rest -> block_split s = Some (inc, rest).
Proof.
  intros (cur & -> & F2 & F3). unfold block_split.
  rewrite strip_prefix_app, (first_split_complete _ _ _ F2).
  now apply first_split_complete.
Qed.

Lemma block_split_begins (s : string) :
  block_begins s -> exists inc rest, block_split s = Some (inc, rest).
Proof.
  intros (cur & inc & rest & ->). unfold block_split. rewrite strip_prefix_app.
  destruct (first_split_occurs separator cur (inc +:+ end_marker +:+ rest))
    as (cur' & s2 & E2).
  rewrite E2. apply first_split_sound in E2 as [E2 F2].
  pose proof (F2 _ _ (eq_sym E2)) as Hlen. symmetry in E2.
  apply app_eq_app_s in E2 as (d0 & _ & E2); [|exact Hlen].
  rewrite <- app_assoc_s in E2.
  apply app_eq_app_s in E2 as (d & _ & ->); [|rewrite length_app_s; lia].
  destruct (first_split_occurs end_marker (d +:+ inc) rest) as (i & r & E3).
  rewrite app_assoc_s in E3. eauto.
Qed.

Lemma block_split_None (s : string) :
  block_split s = None <-> ~ block_begins s.
Proof.
  split.
  - intros H Hb. apply block_split_begins in Hb as (inc & rest & E). congruence.
  - intros H. destruct (block_split s) as [[inc rest]|] eqn:E; [|reflexivity].
    destruct H. apply block_split_sound in E as (cur & E & _). now exists cur, inc, rest.
Qed.

(** A block is 47 characters longer than its two spans. *)
Lemma conflict_block_length (s inc rest : string) :
  conflict_block s inc rest ->
  String.length inc + String.length rest + 47 <= String.length s.
Proof.
  intros (cur & -> & _). rewrite !length_app_s.
  change (String.length start_marker) with 12.
  change (String.length separator) with 7.
  change (String.length end_marker) with 28. lia.
Qed.

(** *** The scan of [re.sub], independent of its fuel *)

Lemma sub_loop_eq (fuel : nat) (s : string) :
  sub_loop DOTALL (S fuel) conflict_pattern s =
  match block_split s with
  | Some (inc, rest) => inc +:+ sub_loop DOTALL fuel conflict_pattern rest
  | None =>
      match s with
      | EmptyString => EmptyString
      | String c s' => String c (sub_loop DOTALL fuel conflict_pattern s')
      end
  end.
Proof.
  rewrite <- match_at_block_split. unfold match_at.
  change (sub_loop DOTALL (S fuel) conflict_pattern s)
    with (match match_here DOTALL conflict_pattern s with
          | Some (gs, rest) => group1 gs +:+ sub_loop DOTALL fuel conflict_pattern rest
          | None =>
              match s with
              | EmptyString => EmptyString
              | String c s' => String c (sub_loop DOTALL fuel conflict_pattern s')
              end
          end).
  now destruct (match_here DOTALL conflict_pattern s) as [[gs rest]|].
Qed.

Lemma sub_loop_fuel (f1 f2 : nat) (s : string) :
  String.length s <= f1 -> String.length s <= f2 ->
  sub_loop DOTALL f1 conflict_pattern s = sub_loop DOTALL f2 conflict_pattern s.
Proof.
  revert f2 s. induction f1 as [|f1 IH]; intros f2 s H1 H2.
  - destruct s; simpl in H1; [|lia]. now destruct f2.
  - destruct f2 as [|f2].
    + destruct s; simpl in H2; [|lia]. reflexivity.
    + rewrite !sub_loop_eq.
      destruct (block_split s) as [[inc rest]|] eqn:E.
      * apply block_split_sound, conflict_block_length in E.
        f_equal. apply IH; lia.
      * destruct s as [|c s]; [reflexivity|]. simpl in H1, H2.
        f_equal. apply IH; lia.
Qed.

(** The equation of the Resolver's transformation: enough fuel is given, so
    that it never stops before the end of the text. *)
Lemma resolved_content_eq (s : string) :
  resolved_content s =
  match block_split s with
  | Some (inc, rest) => inc +:+ resolved_content rest
  | None =>
      match s with
      | EmptyString => EmptyString
      | String c s' => String c (resolved_content s')
      end
  end.
Proof.
  unfold resolved_content, re_sub. destruct s as [|c s]; [reflexivity|].
  change (String.length (String c s)) with (S (String.length s)).
  rewrite sub_loop_eq.
  destruct (block_split (String c s)) as [[inc rest]|] eqn:E; [|reflexivity].
  apply block_split_sound, conflict_block_length in E. simpl in E.
  f_equal. apply sub_loop_fuel; lia.
Qed.

Lemma resolved_content_keep (c : ascii) (s : string) :
  ~ block_begins (String c s) ->
  resolved_content (String c s) = String c (resolved_content s).
Proof.
  intros H. apply block_split_None in H. now rewrite resolved_content_eq, H.
Qed.

Lemma resolved_content_block (s inc rest : string) :
  conflict_block s inc rest ->
  resolved_content s = inc +:+ resolved_content rest.
Proof.
  intros H. apply block_split_complete in H. now rewrite resolved_content_eq, H.
Qed.

Lemma resolved_content_nil : resolved_content "" = "".
Proof. reflexivity. Qed.

(** *** The Resolver's transformation *)

Lemma first_occurrence_head (pat : string) (c : ascii) (a b : string) :
  first_occurrence pat (String c a) b -> strip_prefix pat (String c a +:+ pat +:+ b) = None.
Proof.
  intros H. apply strip_prefix_None. intros r E.
  specialize (H "" r E). simpl in H. lia.
Qed.

Lemma runs_to_first_tail (pat : string) (c : ascii) (a : string) :
  runs_to_first pat (String c a) -> runs_to_first pat a.
Proof. intros H b. exact (first_occurrence_tail _ _ _ _ (H b)). Qed.

(** An occurrence that begins inside [a +:+ pat] lies inside it, so being the
    first one can be checked without what follows. *)
Lemma runs_to_first_check (pat a : string) :
  first_split pat (a +:+ pat) = Some (a, "") -> runs_to_first pat a.
Proof.
  intros H b a' b' E.
  destruct (Nat.le_gt_cases (String.length a) (String.length a')) as [|Hlt]; [assumption|].
  apply first_split_sound in H as [_ H].
  symmetry in E. apply app_eq_app_s in E as (d & -> & E); [|lia].
  rewrite <- app_assoc_s in E.
  apply app_eq_app_s in E as (e & E & _); [|rewrite length_app_s; lia].
  apply (H a' e). now rewrite app_nil_r_s, app_assoc_s, E.
Qed.

(** Text before the first start marker is copied. *)
Lemma resolved_content_before (p x : string) :
  runs_to_first start_marker p ->
  resolved_content (p +:+ start_marker +:+ x)
  = p +:+ resolved_content (start_marker +:+ x).
Proof.
  induction p as [|c p IH]; intros H; [reflexivity|].
  assert (Hb : ~ block_begins (String c (p +:+ start_marker +:+ x))).
  { apply block_split_None. unfold block_split.
    change (String c (p +:+ start_marker +:+ x))
      with (String c p +:+ start_marker +:+ x).
    now rewrite (first_occurrence_head _ _ _ _ (H x)). }
  change (String c p +:+ start_marker +:+ x)
    with (String c (p +:+ start_marker +:+ x)).
  now rewrite (resolved_content_keep _ _ Hb), (IH (runs_to_first_tail _ _ _ H)).
Qed.

(** A block is replaced by its incoming span. *)
Lemma resolved_content_one_block (cur inc y : string) :
  runs_to_first separator cur -> runs_to_first end_marker inc ->
  resolved_content (start_marker +:+ cur +:+ separator +:+ inc +:+ end_marker +:+ y)
  = inc +:+ resolved_content y.
Proof.
  intros Hc Hi. apply resolved_content_block. exists cur.
  split; [reflexivity|]. split; [apply Hc | apply Hi].
Qed.

(** A text without any block is left as it is. *)
Lemma resolved_content_block_free (s : string) :
  block_free s -> resolved_content s = s.
Proof.
  induction s as [|c s IH]; intros H; [reflexivity|].
  rewrite resolved_content_keep; [|exact (H "" _ eq_refl)].
  rewrite IH; [reflexivity|]. intros a b ->. exact (H (String c a) b eq_refl).
Qed.

Lemma no_start_block_free (s : string) : ~ occurs start_marker s -> block_free s.
Proof.
  intros H a b -> (cur & inc & rest & ->). apply H.
  exists a, (cur +:+ separator +:+ inc +:+ end_marker +:+ rest). reflexivity.
Qed.

Lemma no_complete_block_free (s : string) : ~ complete_block s -> block_free s.
Proof.
  intros H a b -> (cur & inc & rest & ->). apply H. now exists a, cur, inc, rest.
Qed.

Lemma complete_block_separator_then_end (s : string) :
  complete_block s -> separator_then_end s.
Proof.
  intros (a & cur & inc & rest & ->).
  exists (a +:+ start_marker +:+ cur), inc, rest. now rewrite !app_assoc_s.
Qed.

(** The transformation is the resolution of the specification. *)
Lemma resolved_content_resolution (content : string) :
  resolution content (resolved_content content).
Proof.
  remember (String.length content) as n eqn:Hn.
  revert content Hn. induction n as [n IH] using lt_wf_ind. intros content ->.
  destruct (block_split content) as [[inc rest]|] eqn:E.
  - apply block_split_sound in E.
    rewrite (resolved_content_block _ _ _ E).
    apply (resolution_block _ _ _ _ E).
    apply conflict_block_length in E. apply (IH (String.length rest)); [lia | reflexivity].
  - apply block_split_None in E. destruct content as [|c s].
    + apply resolution_end.
    + rewrite (resolved_content_keep _ _ E).
      apply resolution_keep; [exact E|]. apply (IH (String.length s)); [simpl; lia | reflexivity].
Qed.

Lemma resolution_unique (content r : string) :
  resolution content r -> r = resolved_content content.
Proof.
  induction 1 as [|c s r Hb _ IH|s inc rest r Hb _ IH].
  - reflexivity.
  - now rewrite (resolved_content_keep _ _ Hb), IH.
  - now rewrite (resolved_content_block _ _ _ Hb), IH.
Qed.

(** C1, as the specification states it, fails: the round-trip file of the
    specification, one block with the sides [A] and [B], does not resolve to
    the single line [B]. *)
Lemma one_block_file_not_one_line :
  resolved_content one_block_file <> "B" +:+ nl.
Proof. intros H. vm_compute in H. discriminate H. Qed.

(** C1 (amended): the round-trip file resolves to the incoming span as it is
    captured, from just after the separator to just before the end marker,
    which is the line [B] with the newline that ends the separator line in
    front of it, followed by the newline that ends the end-marker line:
    an empty line, [B], and another empty line. *)
Theorem one_block_file_resolved :
  resolved_content one_block_file = nl +:+ "B" +:+ nl +:+ nl.
Proof. vm_compute. reflexivity. Qed.

(** C3: on every content the transformation is the left-to-right resolution
    of the specification, and nothing else is: each block (start marker, up
    to the first separator, up to the first end marker) is replaced by its
    incoming span, the scan resumes after the block, and every character at
    which no block begins is copied.  In particular two blocks, each
    delimited by its first markers, with marker-free text around them, are
    both replaced in the one pass and the text around them is kept. *)
Theorem resolver_replaces_every_block :
  (forall content r : string,
      resolution content r <-> r = resolved_content content)
  /\ (forall p cur1 inc1 q cur2 inc2 r : string,
         runs_to_first start_marker p ->
         runs_to_first separator cur1 ->
         runs_to_first end_marker inc1 ->
         runs_to_first start_marker q ->
         runs_to_first separator cur2 ->
         runs_to_first end_marker inc2 ->
         ~ occurs start_marker r ->
         resolved_content
           (p +:+ start_marker +:+ cur1 +:+ separator +:+ inc1 +:+ end_marker
            +:+ q +:+ start_marker +:+ cur2 +:+ separator +:+ inc2 +:+ end_marker
            +:+ r)
         = p +:+ inc1 +:+ q +:+ inc2 +:+ r).
Proof.
  split.
  - intros content r. split.
    + apply resolution_unique.
    + intros ->. apply resolved_content_resolution.
  - intros p cur1 inc1 q cur2 inc2 r Hp Hc1 Hi1 Hq Hc2 Hi2 Hr.
    rewrite (resolved_content_before _ _ Hp).
    rewrite (resolved_content_one_block _ _ _ Hc1 Hi1).
    rewrite (resolved_content_before _ _ Hq).
    rewrite (resolved_content_one_block _ _ _ Hc2 Hi2).
    now rewrite (resolved_content_block_free _ (no_start_block_free _ Hr)).
Qed.

Lemma resolver_two_blocks_example :
  resolved_content
    (("import a;" +:+ nl) +:+ start_marker +:+ (nl +:+ "A1" +:+ nl) +:+ separator
     +:+ (nl +:+ "B1" +:+ nl) +:+ end_marker
     +:+ (nl +:+ "middle = 1" +:+ nl) +:+ start_marker +:+ (nl +:+ "A2" +:+ nl)
     +:+ separator +:+ (nl +:+ "B2" +:+ nl) +:+ end_marker
     +:+ (nl +:+ "export b;" +:+ nl))
  = ("import a;" +:+ nl) +:+ (nl +:+ "B1" +:+ nl)
    +:+ (nl +:+ "middle = 1" +:+ nl) +:+ (nl +:+ "B2" +:+ nl)
    +:+ (nl +:+ "export b;" +:+ nl).
Proof.
  apply (proj2 resolver_replaces_every_block);
    try (apply runs_to_first_check; vm_compute; reflexivity).
  intros H. apply contains_spec in H. vm_compute in H. discriminate H.
Defined.

(** C4, as the specification states it, fails: in [midline_file] the start
    marker is at offset 2, after the characters [x] and a space of the same
    line, the pattern matches there, and the block is replaced. *)
Lemma midline_block_is_matched :
  matches_at_offset midline_file 2
  /\ ~ line_start midline_file 2
  /\ resolved_content midline_file = "x by".
Proof.
  split; [|split].
  - unfold matches_at_offset. vm_compute. discriminate.
  - intros [H|H]; [discriminate H|]. vm_compute in H. discriminate H.
  - vm_compute. reflexivity.
Qed.

(** C4 (amended): the pattern matches at an offset exactly when the start
    marker with the label [HEAD] occurs there and is followed, later, by a
    separator and then by an end marker with its label; the text before the
    offset plays no part, so the marker need not begin a line. *)
Theorem match_ignores_what_precedes (pre s : string) :
  matches_at_offset (pre +:+ s) (String.length pre) <-> block_begins s.
Proof.
  unfold matches_at_offset. rewrite drop_chars_app, match_at_block_split.
  split.
  - intros H. destruct (block_split s) as [[inc rest]|] eqn:E; [|congruence].
    apply block_split_sound in E as (cur & E & _). now exists cur, inc, rest.
  - intros H. apply block_split_begins in H as (inc & rest & E). congruence.
Qed.

Lemma match_ignores_what_precedes_example :
  matches_at_offset ("x " +:+ "<<<<<<< HEAD a=======b>>>>>>> jules-testing-mergesy") 2.
Proof.
  apply (proj2 (match_ignores_what_precedes "x "
                  "<<<<<<< HEAD a=======b>>>>>>> jules-testing-mergesy")).
  now exists " a", "b", "y".
Defined.

(** C7: a content that holds the start marker but no complete block (no
    separator and end marker, in that order, after a start marker) is
    returned as it is; the transformation is a total function, so there is no
    failure to report. *)
Theorem unfinished_block_unchanged (content : string) :
  occurs start_marker content ->
  ~ complete_block content ->
  resolved_content content = content.
Proof.
  intros _ H. apply resolved_content_block_free.
  now apply no_complete_block_free.
Qed.

Lemma separator_then_end_split (content : string) :
  separator_then_end content ->
  exists a r, first_split separator content = Some (a, r) /\ occurs end_marker r.
Proof.
  intros (a & b & c & ->).
  destruct (first_split_occurs separator a (b +:+ end_marker +:+ c)) as (a' & r & E).
  exists a', r. split; [exact E|].
  apply first_split_sound in E as [E F].
  pose proof (F _ _ (eq_sym E)) as Hlen. symmetry in E.
  apply app_eq_app_s in E as (d0 & _ & E); [|exact Hlen].
  rewrite <- app_assoc_s in E.
  apply app_eq_app_s in E as (d & _ & ->); [|rewrite length_app_s; lia].
  exists (d +:+ b), c. now rewrite app_assoc_s.
Qed.

Lemma unfinished_file_unchanged :
  resolved_content unfinished_file = unfinished_file.
Proof.
  apply unfinished_block_unchanged.
  - apply contains_spec. vm_compute. reflexivity.
  - intros H. apply complete_block_separator_then_end in H.
    apply separator_then_end_split in H as (a & r & E & H).
    vm_compute in E. injection E as <- <-.
    apply contains_spec in H. vm_compute in H. discriminate H.
Defined.

(** C8: on a content without any of the three markers the transformation is
    the identity, so that a second application changes nothing. *)
Theorem resolved_file_fixed (content : string) :
  marker_free content ->
  resolved_content content = content
  /\ resolved_content (resolved_content content) = resolved_content content.
Proof.
  intros (H & _ & _).
  assert (E : resolved_content content = content)
    by now apply resolved_content_block_free, no_start_block_free.
  now rewrite !E.
Qed.

Lemma resolved_file_fixed_example :
  resolved_content ("const x = 1;" +:+ nl) = "const x = 1;" +:+ nl
  /\ resolved_content (resolved_content ("const x = 1;" +:+ nl))
     = resolved_content ("const x = 1;" +:+ nl).
Proof.
  apply resolved_file_fixed.
  repeat split; intros H; apply contains_spec in H; vm_compute in H; discriminate H.
Defined.

(** C9: the transformation is not idempotent.  The incoming span of the block
    of [nested_file] holds a start marker; the replacement text is not scanned
    again, so the result still contains the start marker, and a second
    application changes it. *)
Theorem resolved_content_not_idempotent :
  exists content : string,
    occurs start_marker (resolved_content content)
    /\ resolved_content (resolved_content content) <> resolved_content content.
Proof.
  exists nested_file. split.
  - apply contains_spec. vm_compute. reflexivity.
  - intros H. vm_compute in H. discriminate H.
Qed.

Example nested_file_two_passes :
  resolved_content nested_file
  = " <<<<<<< HEAD b ======= c  d >>>>>>> jules-testing-merges"
  /\ resolved_content (resolved_content nested_file) = "  c  d ".
Proof. split; vm_compute; reflexivity. Qed.

(** C10: the transformed content is never longer than the content. *)
Theorem resolved_content_length (content : string) :
  String.length (resolved_content content) <= String.length content.
Proof.
  remember (String.length content) as n eqn:Hn.
  revert content Hn. induction n as [n IH] using lt_wf_ind. intros content ->.
  rewrite resolved_content_eq.
  destruct (block_split content) as [[inc rest]|] eqn:E.
  - apply block_split_sound, conflict_block_length in E.
    rewrite length_app_s.
    specialize (IH (String.length rest) ltac:(lia) rest eq_refl). lia.
  - destruct content as [|c s]; [reflexivity|]. simpl.
    specialize (IH (String.length s) ltac:(simpl; lia) s eq_refl). lia.
Qed.

(** *** The Scanner *)

Lemma final_extension_suffix (name e : string) :
  final_extension name = e -> e <> "" -> exists a, name = a +:+ e.
Proof.
  revert e. induction name as [|c rest IH]; intros e H He; simpl in H.
  - congruence.
  - destruct (final_extension rest) as [|c' e'] eqn:E.
    + destruct (Ascii.eqb c "."); [|congruence]. exists "". now subst e.
    + subst e. destruct (IH _ eq_refl He) as [a ->]. now exists (String c a).
Qed.

Lemma final_extension_app (a ext : string) :
  final_extension ext = ext -> ext <> "" -> final_extension (a +:+ ext) = ext.
Proof.
  intros H He. induction a as [|c a IH]; [exact H|].
  simpl. rewrite IH. destruct ext; [congruence | reflexivity].
Qed.

(** [endswith] with a suffix made of a dot and dot-free characters tests the
    final extension. *)
Lemma endswith_final_extension (name ext : string) :
  final_extension ext = ext -> ext <> "" ->
  endswith name ext = true <-> final_extension name = ext.
Proof.
  intros H He. rewrite endswith_spec. split.
  - intros [a ->]. now apply final_extension_app.
  - intros E. now apply final_extension_suffix.
Qed.

Lemma read_file_returns (path content : string) (w w' : world) :
  read_file path w = (w', inr content) <->
  w' = w /\ exists f, fs w !! path = Some f /\ readable f = true /\ text f = content.
Proof.
  unfold read_file. destruct (fs w !! path) as [f|].
  - destruct (readable f) eqn:R; split.
    + intros [= <- <-]. eauto.
    + intros (-> & f' & [= <-] & _ & <-). reflexivity.
    + discriminate.
    + intros (_ & f' & [= <-] & ? & _). congruence.
  - split; [discriminate|]. intros (_ & f & ? & _). discriminate.
Qed.

Lemma read_file_raises (path : string) (w w' : world) (e : exn) :
  read_file path w = (w', inl e) <->
  w' = w /\ match fs w !! path with
            | None => e = FileNotFoundError path
            | Some f => readable f = false /\ e = PermissionError path
            end.
Proof.
  unfold read_file. destruct (fs w !! path) as [f|].
  - destruct (readable f); split.
    + discriminate.
    + intros (_ & ? & _). discriminate.
    + intros [= <- <-]. auto.
    + intros (-> & _ & ->). reflexivity.
  - split; [intros [= <- <-]; auto | intros (-> & ->); reflexivity].
Qed.

Lemma candidateb_spec (root file : string) (w : world) :
  candidateb root file w = true <-> is_candidate root file w.
Proof.
  unfold candidateb, is_candidate.
  rewrite !andb_true_iff, !orb_true_iff, !contains_spec.
  rewrite !endswith_final_extension by (reflexivity || discriminate).
  split.
  - intros ((Hext & Hdir) & Hread). split; [exact Hext|]. split; [exact Hdir|].
    destruct (fs w !! path_join root file) as [f|] eqn:E; [|discriminate].
    apply andb_true_iff in Hread as [R C]. apply contains_spec in C.
    exists (text f). split; [|exact C]. apply read_file_returns. eauto.
  - intros (Hext & Hdir & content & Hread & C). split; [auto|].
    apply read_file_returns in Hread as (_ & f & -> & -> & ->).
    now apply contains_spec in C as ->.
Qed.

(** One step of the inner loop: it returns, leaves the world as it is, and
    appends the path exactly under the four conditions. *)
Lemma scan_file_eq (root file : string) (acc : list string) (w : world) :
  scan_file root file acc w =
  (w, inr (if candidateb root file w then acc ++ [path_join root file] else acc)).
Proof.
  unfold scan_file, candidateb.
  destruct ((endswith file ".tsx" || endswith file ".ts")
            && (contains "client" root || contains "server" root)); [|reflexivity].
  unfold try_except, bind, read_file, ret. simpl.
  destruct (fs w !! path_join root file) as [f|]; [|reflexivity].
  destruct (readable f); [|reflexivity]. simpl.
  now destruct (contains "<<<<<<< HEAD" (text f)).
Qed.

Lemma scan_dir_spec (root : string) (files acc : list string) (w : world) :
  exists l,
    scan_dir root files acc w = (w, inr (acc ++ l))
    /\ forall path, In path l <->
         exists file, In file files /\ path = path_join root file
                      /\ candidateb root file w = true.
Proof.
  revert acc. induction files as [|file files IH]; intros acc.
  - exists []. rewrite app_nil_r. split; [reflexivity|].
    intros path. split; [intros [] | intros (? & [] & _)].
  - simpl. unfold bind. rewrite scan_file_eq.
    destruct (candidateb root file w) eqn:C.
    + destruct (IH (acc ++ [path_join root file])) as (l & -> & Hl).
      exists (path_join root file :: l). rewrite <- app_assoc. split; [reflexivity|].
      intros path. simpl. rewrite Hl. split.
      * intros [<-|(f & ? & ? & ?)]; eauto 6.
      * intros (f & [<-|?] & -> & ?); eauto 6.
    + destruct (IH acc) as (l & -> & Hl). exists l. split; [reflexivity|].
      intros path. rewrite Hl. split.
      * intros (f & ? & ? & ?). exists f. simpl. auto.
      * intros (f & [<-|?] & -> & ?); [congruence | eauto].
Qed.

Lemma scan_walk_spec (walk : list walk_entry) (acc : list string) (w : world) :
  exists l,
    scan_walk walk acc w = (w, inr (acc ++ l))
    /\ forall path, In path l <->
         exists root dirs files file,
           In (root, dirs, files) walk /\ In file files
           /\ path = path_join root file /\ candidateb root file w = true.
Proof.
  revert acc. induction walk as [|[[root dirs] files] walk IH]; intros acc.
  - exists []. rewrite app_nil_r. split; [reflexivity|].
    intros path. split; [intros [] | intros (? & ? & ? & ? & [] & _)].
  - simpl. unfold bind.
    destruct (scan_dir_spec root files acc w) as (l1 & -> & H1).
    destruct (IH (acc ++ l1)) as (l2 & -> & H2).
    exists (l1 ++ l2). rewrite app_assoc. split; [reflexivity|].
    intros path. rewrite in_app_iff, H1, H2. split.
    + intros [(file & ? & ? & ?)|(r & d & fl & file & ? & ? & ? & ?)].
      * exists root, dirs, files, file. simpl. auto.
      * exists r, d, fl, file. simpl. auto.
    + intros (r & d & fl & file & [[= -> -> ->]|?] & ? & ? & ?).
      * left. eauto.
      * right. exists r, d, fl, file. auto.
Qed.

(** C2: the Scanner appends a file met by the walk to the candidate list if
    and only if its name's final extension is [.tsx] or [.ts], its directory
    path contains [client] or [server], reading it succeeds and the text read
    contains the start marker: this holds for each step of the inner loop,
    and for the list that the whole walk produces. *)
Theorem scanner_candidates :
  (forall (root file : string) (acc : list string) (w : world),
      is_candidate root file w ->
      scan_file root file acc w = (w, inr (acc ++ [path_join root file])))
  /\ (forall (root file : string) (acc : list string) (w : world),
         ~ is_candidate root file w ->
         scan_file root file acc w = (w, inr acc))
  /\ (forall (walk : list walk_entry) (w : world),
         exists l,
           scan_walk walk [] w = (w, inr l)
           /\ forall path, In path l <->
                exists root dirs files file,
                  In (root, dirs, files) walk /\ In file files
                  /\ path = path_join root file /\ is_candidate root file w).
Proof.
  split; [|split].
  - intros root file acc w H. apply candidateb_spec in H.
    now rewrite scan_file_eq, H.
  - intros root file acc w H. rewrite scan_file_eq.
    destruct (candidateb root file w) eqn:C; [|reflexivity].
    now apply candidateb_spec in C.
  - intros walk w. destruct (scan_walk_spec walk [] w) as (l & E & H).
    exists l. split; [exact E|]. intros path. rewrite H.
    split; intros (r & d & fl & f & ? & ? & ? & C); exists r, d, fl, f;
      (split; [assumption|]); (split; [assumption|]); (split; [assumption|]);
      now apply candidateb_spec.
Qed.

Lemma scanner_candidates_example :
  scan_file "./client/src" "App.tsx" [] sample_world
  = (World sample_fs [], inr ["./client/src/App.tsx"]).
Proof.
  apply (proj1 scanner_candidates "./client/src" "App.tsx" [] sample_world).
  apply candidateb_spec. vm_compute. reflexivity.
Defined.

(** C6: discovery returns a list whatever the files are, without changing
    the world; an error raised by reading a file is caught, the list is not
    extended with that file, and the loop goes on with the next file. *)
Theorem discovery_never_fails :
  (forall (walk : list walk_entry) (acc : list string) (w : world),
      exists l, scan_walk walk acc w = (w, inr l))
  /\ (forall (root file : string) (acc : list string) (w w' : world) (e : exn),
         read_file (path_join root file) w = (w', inl e) ->
         scan_file root file acc w = (w, inr acc))
  /\ (forall (root file : string) (files acc : list string) (w w' : world) (e : exn),
         read_file (path_join root file) w = (w', inl e) ->
         scan_dir root (file :: files) acc w = scan_dir root files acc w).
Proof.
  assert (Hskip : forall root file acc w w' e,
             read_file (path_join root file) w = (w', inl e) ->
             scan_file root file acc w = (w, inr acc)).
  { intros root file acc w w' e H. rewrite scan_file_eq.
    apply read_file_raises in H as [_ H]. unfold candidateb.
    destruct (fs w !! path_join root file) as [f|].
    - destruct H as [-> _]. now rewrite andb_false_r.
    - now rewrite andb_false_r. }
  split; [|split].
  - intros walk acc w. destruct (scan_walk_spec walk acc w) as (l & E & _). eauto.
  - exact Hskip.
  - intros root file files acc w w' e H. simpl. unfold bind.
    now rewrite (Hskip _ _ _ _ _ _ H).
Qed.

Lemma discovery_skips_unreadable_example :
  scan_dir "./server" ["secret.ts"; "locked.ts"] [] sample_world
  = scan_dir "./server" ["locked.ts"] [] sample_world.
Proof.
  apply (proj2 (proj2 discovery_never_fails) "./server" "secret.ts" ["locked.ts"] []
           sample_world sample_world (PermissionError "./server/secret.ts")).
  vm_compute. reflexivity.
Defined.

(** *** The resolution loop *)

Lemma resolve_all_app (l1 l2 : list string) (w : world) :
  resolve_all (l1 ++ l2) w =
  match resolve_all l1 w with
  | (w1, inr _) => resolve_all l2 w1
  | (w1, inl e) => (w1, inl e)
  end.
Proof.
  revert w. induction l1 as [|p l1 IH]; intros w; [reflexivity|].
  unfold resolve_all in *. simpl. unfold bind.
  destruct (resolve_conflicts p w) as [w1 [e|[]]]; [reflexivity | apply IH].
Qed.

(** When resolving a file raises, only the progress line was written. *)
Lemma resolve_conflicts_raises (p : string) (w w2 : world) (e : exn) :
  resolve_conflicts p w = (w2, inl e) -> w2 = printed (resolving_line p) w.
Proof.
  unfold resolve_conflicts, bind, print, read_file, write_file, printed, resolving_line.
  cbn [fs stdout]. destruct (fs w !! p) as [f|] eqn:E; [|now inversion 1].
  destruct (readable f); [|now inversion 1].
  cbn [fs stdout]. rewrite E.
  destruct (writable f); [discriminate | now inversion 1].
Qed.

(** C5: when resolving a file of the candidate list raises, whether in the
    read or in the write, the loop stops with that error: the files before it
    were processed, the files after it are not (the file system is the one
    left by the files before, and the last progress line is that of the
    failing file), and the whole script ends with the error, without its
    completion line. *)
Theorem resolution_error_aborts
    (done later : list string) (p : string) (w w1 w2 : world) (e : exn) :
  resolve_all done w = (w1, inr tt) ->
  resolve_conflicts p w1 = (w2, inl e) ->
  resolve_all (done ++ p :: later) w = (w2, inl e)
  /\ fs w2 = fs w1
  /\ stdout w2 = stdout w1 ++ [resolving_line p]
  /\ forall (walk : list walk_entry) (w0 : world),
       scan_walk walk [] w0 = (w0, inr (done ++ p :: later)) ->
       w = printed (found_line (done ++ p :: later)) w0 ->
       main walk w0 = (w2, inl e).
Proof.
  intros Hdone Hp.
  assert (Hall : resolve_all (done ++ p :: later) w = (w2, inl e)).
  { rewrite resolve_all_app, Hdone. unfold resolve_all. simpl. unfold bind.
    now rewrite Hp. }
  pose proof (resolve_conflicts_raises _ _ _ _ Hp) as ->.
  repeat split; try assumption.
  intros walk w0 Hscan ->. unfold main, bind at 1. rewrite Hscan.
  unfold bind at 1, print at 1.
  change {| fs := fs w0;
            stdout := stdout w0 ++ ["Found " +:+ pretty (length (done ++ p :: later))
                                    +:+ " files with conflicts"] |}
    with (printed (found_line (done ++ p :: later)) w0).
  unfold bind. now rewrite Hall.
Qed.

Lemma resolution_error_aborts_example :
  main sample_walk sample_world
  = (World
       (<["./client/src/App.tsx" := File true true (nl +:+ "B" +:+ nl +:+ nl)]> sample_fs)
       ["Found 3 files with conflicts";
        "Resolving conflicts in ./client/src/App.tsx";
        "Resolving conflicts in ./server/locked.ts"],
     inl (PermissionError "./server/locked.ts")).
Proof.
  refine (proj2 (proj2 (proj2
    (resolution_error_aborts ["./client/src/App.tsx"] ["./server/index.ts"]
       "./server/locked.ts"
       (printed "Found 3 files with conflicts" sample_world)
       (World
          (<["./client/src/App.tsx" := File true true (nl +:+ "B" +:+ nl +:+ nl)]> sample_fs)
          ["Found 3 files with conflicts"; "Resolving conflicts in ./client/src/App.tsx"])
       _ (PermissionError "./server/locked.ts") _ _))) sample_walk sample_world _ _);
    vm_compute; reflexivity.
Defined.

(** ** Part IV: further properties of the script *)

(** *** What the transformation changes *)

Lemma resolved_content_le (s : string) :
  String.length (resolved_content s) <= String.length s.
Proof.
  remember (String.length s) as n eqn:Hn.
  revert s Hn. induction n as [n IH] using lt_wf_ind. intros s ->.
  rewrite resolved_content_eq.
  destruct (block_split s) as [[inc rest]|] eqn:E.
  - apply block_split_sound, conflict_block_length in E.
    rewrite length_app_s.
    specialize (IH (String.length rest) ltac:(lia) rest eq_refl). lia.
  - destruct s as [|c s]; [reflexivity|]. simpl.
    specialize (IH (String.length s) ltac:(simpl; lia) s eq_refl). lia.
Qed.

(** A content with a complete block loses the 47 characters of the three
    markers of at least one block. *)
Lemma complete_block_shrinks (content : string) :
  complete_block content ->
  String.length (resolved_content content) + 47 <= String.length content.
Proof.
  intros (a & cur & inc & rest & ->).
  induction a as [|c a IH].
  - change ("" +:+ ?x) with x.
    assert (Hb : block_begins
                   (start_marker +:+ cur +:+ separator +:+ inc +:+ end_marker +:+ rest))
      by now exists cur, inc, rest.
    apply block_split_begins in Hb as (i & r & E).
    rewrite resolved_content_eq, E.
    apply block_split_sound, conflict_block_length in E.
    pose proof (resolved_content_le r). rewrite length_app_s. lia.
  - rewrite resolved_content_eq.
    destruct (block_split (String c a +:+ start_marker +:+ cur +:+ separator
                           +:+ inc +:+ end_marker +:+ rest)) as [[i r]|] eqn:E.
    + apply block_split_sound, conflict_block_length in E.
      pose proof (resolved_content_le r). rewrite length_app_s. lia.
    + simpl. simpl in IH. lia.
Qed.

(** X1: the transformation leaves a content as it is exactly when the
    content holds no complete block, and otherwise makes it at least 47
    characters shorter. *)
Theorem resolved_content_fixed_iff (content : string) :
  (resolved_content content = content <-> ~ complete_block content)
  /\ (complete_block content ->
      String.length (resolved_content content) + 47 <= String.length content).
Proof.
  split; [split|].
  - intros E H. apply complete_block_shrinks in H. rewrite E in H. lia.
  - intros H. now apply resolved_content_block_free, no_complete_block_free.
  - apply complete_block_shrinks.
Qed.

Lemma resolved_content_fixed_iff_example :
  String.length (resolved_content one_block_file) + 47
  <= String.length one_block_file.
Proof.
  apply (proj2 (resolved_content_fixed_iff one_block_file)).
  exists "", (nl +:+ "A" +:+ nl), (nl +:+ "B" +:+ nl), nl. reflexivity.
Defined.

(** X2: the current side is discarded: two contents that differ only in the
    text between the start marker and the first separator of a complete block
    resolve to the same text. *)
Theorem current_side_discarded (p cur cur' inc rest : string) :
  runs_to_first start_marker p ->
  runs_to_first separator cur ->
  runs_to_first separator cur' ->
  resolved_content
    (p +:+ start_marker +:+ cur +:+ separator +:+ inc +:+ end_marker +:+ rest)
  = resolved_content
      (p +:+ start_marker +:+ cur' +:+ separator +:+ inc +:+ end_marker +:+ rest).
Proof.
  intros Hp Hc Hc'. rewrite !(resolved_content_before _ _ Hp). f_equal.
  rewrite !resolved_content_eq. unfold block_split.
  rewrite !strip_prefix_app.
  rewrite (first_split_complete _ _ _ (Hc (inc +:+ end_marker +:+ rest))).
  rewrite (first_split_complete _ _ _ (Hc' (inc +:+ end_marker +:+ rest))).
  now destruct (first_split_occurs end_marker inc rest) as (i & r & ->).
Qed.

Lemma current_side_discarded_example :
  resolved_content
    (("a" +:+ nl) +:+ start_marker +:+ (nl +:+ "ours" +:+ nl) +:+ separator
     +:+ (nl +:+ "B" +:+ nl) +:+ end_marker +:+ nl)
  = resolved_content
      (("a" +:+ nl) +:+ start_marker +:+ (nl +:+ "something else" +:+ nl)
       +:+ separator +:+ (nl +:+ "B" +:+ nl) +:+ end_marker +:+ nl).
Proof.
  apply current_side_discarded;
    apply runs_to_first_check; vm_compute; reflexivity.
Defined.

(** *** One file through [resolve_conflicts] *)










(** *** The resolution loop on any candidate list *)










(** *** The candidate list in closed form *)

Lemma scan_dir_eq (root : string) (files acc : list string) (w : world) :
  scan_dir root files acc w
  = (w, inr (acc ++ List.map (path_join root)
                      (List.filter (fun file => candidateb root file w) files))).
Proof.
  revert acc. induction files as [|file files IH]; intros acc.
  - simpl. now rewrite app_nil_r.
  - simpl. unfold bind. rewrite scan_file_eq.
    destruct (candidateb root file w); rewrite IH; [|reflexivity].
    simpl. now rewrite <- app_assoc.
Qed.

Lemma scan_walk_eq (walk : list walk_entry) (acc : list string) (w : world) :
  scan_walk walk acc w = (w, inr (acc ++ candidates_of walk w)).
Proof.
  revert acc. induction walk as [|[[root dirs] files] walk IH]; intros acc.
  - simpl. now rewrite app_nil_r.
  - simpl. unfold bind. rewrite scan_dir_eq, IH. now rewrite <- app_assoc.
Qed.

(** X8: the Scanner extends the list built so far with the joined paths of
    the files that pass the tests, in the order in which the walk yields
    them and once per time it yields them; it drops nothing from the list
    and leaves the world as it is.  The list of a walk in two parts is the
    list of the first part followed by that of the second. *)
Theorem scan_walk_in_walk_order :
  (forall (walk : list walk_entry) (acc : list string) (w : world),
      scan_walk walk acc w = (w, inr (acc ++ candidates_of walk w)))
  /\ (forall (walk1 walk2 : list walk_entry) (w : world),
         candidates_of (walk1 ++ walk2) w
         = candidates_of walk1 w ++ candidates_of walk2 w)
  /\ (forall (root : string) (dirs files : list string) (w : world),
         candidates_of [(root, dirs, files)] w
         = List.map (path_join root)
             (List.filter (fun file => candidateb root file w) files)).
Proof.
  split; [exact scan_walk_eq|]. split.
  - intros walk1 walk2 w. unfold candidates_of. apply flat_map_app.
  - intros root dirs files w. unfold candidates_of. simpl. apply app_nil_r.
Qed.






(** *** The whole script *)













(** X14: the regular expression does what an explicit scanner over the three
    literal markers does: the pattern matches at the start of a text exactly
    when the text begins with the start marker, a separator follows, and an
    end marker follows the first separator; the group is the text between
    the first separator and the first end marker after it, and the match
    ends with that end marker. *)
Theorem pattern_is_three_splits (s : string) :
  match_at s = block_split s
  /\ forall inc rest, match_at s = Some (inc, rest) <-> conflict_block s inc rest.
Proof.
  split; [apply match_at_block_split|].
  intros inc rest. rewrite match_at_block_split. split.
  - apply block_split_sound.
  - apply block_split_complete.
Qed.
